(** * Passkey.h: the passkey idiom, its macros and the access they grant

    [Passkey.h] defines three preprocessor macros.  A passkey is declared by
    writing [PK_BEGIN(Name) PK_ALLOW(T1) ... PK_ALLOW(Tk) PK_END]; the
    expansion is a class whose special members are private and whose friends
    are the types [T1 ... Tk].

    The development has these parts.
    - [Pp]: tokens, the macro definitions as the header spells them, and
      macro replacement (parameter substitution).
    - [Cxx]: the class definitions of the fragment the macros expand to, a
      parser from tokens to them, and the rules of the language for member
      access, friendship, deleted functions and implicitly declared special
      members, restricted to that fragment.
    - [Run]: what running a special member function does to a program state.
    - [Lock]: a function locked by a passkey and a call of it, as the usage
      notes of the header describe them.
    - Types nested in or local to other classes ([type_site], [host]), the
      ways of passing a passkey to a locked function ([key_arg]), and files
      that hold several declarations.
    - The theorems about the declarations the macros produce.

    Macro arguments are single identifiers that name types; arguments are
    not themselves macro-expanded and the replacement is not rescanned,
    which is all a passkey declaration needs when no type bears the name of
    a macro. *)

From stdpp Require Import base option list strings gmap.

(** ** Tokens and macros *)

Module Pp.

(** An identifier is the name of a type or of a macro parameter.  Keywords
    have token constructors of their own, and the names of the macros are
    not used as type names. *)
Definition ident := string.

(** The tokens that occur in the header and in uses of a passkey.  Comments
    are gone before macros are recorded, so [/* Intentionally blank */] and
    the trailing [//Passkey.] leave no token. *)
Inductive token : Type :=
  | KwClass | KwPrivate | KwPublic | KwFriend | KwConst | KwOperator | KwDelete
  | Ident (x : ident)
  | LBrace | RBrace | LParen | RParen | Colon | Semi | Amp | Assign.

#[global] Instance token_eq_dec : EqDecision token.
Proof. solve_decision. Defined.

(** A [#define].  [m_params] is [None] for an object-like macro
    ([#define PK_END ...]) and the parameter names for a function-like one. *)
Record macro : Type := Macro {
  m_name : string;
  m_params : option (list ident);
  m_body : list token }.

(** <<
#define PK_BEGIN(_PasskeyName)              \
    class _PasskeyName                      \
    {                                       \
    private:                                \
        _PasskeyName()                      { /* Intentionally blank */ }   \
        _PasskeyName(const _PasskeyName&)   { /* Intentionally blank */ }   \
        _PasskeyName& operator=(const _PasskeyName&) = delete;
>> *)
Definition PK_BEGIN : macro :=
  Macro "PK_BEGIN" (Some ["_PasskeyName"])
    [ KwClass; Ident "_PasskeyName";
      LBrace;
      KwPrivate; Colon;
      Ident "_PasskeyName"; LParen; RParen; LBrace; RBrace;
      Ident "_PasskeyName"; LParen; KwConst; Ident "_PasskeyName"; Amp; RParen;
        LBrace; RBrace;
      Ident "_PasskeyName"; Amp; KwOperator; Assign;
        LParen; KwConst; Ident "_PasskeyName"; Amp; RParen;
        Assign; KwDelete; Semi ].

(** <<
#define PK_ALLOW(_ClassName)                \
    friend _ClassName;
>> *)
Definition PK_ALLOW : macro :=
  Macro "PK_ALLOW" (Some ["_ClassName"])
    [ KwFriend; Ident "_ClassName"; Semi ].

(** <<
#define PK_END                              \
    };//Passkey.
>> *)
Definition PK_END : macro :=
  Macro "PK_END" None [ RBrace; Semi ].

(** A piece of source text between directives: an ordinary token, the use of
    an object-like macro, or the invocation of a function-like macro with its
    arguments (each a token sequence). *)
Inductive src_item : Type :=
  | Tok (t : token)
  | Obj (name : string)
  | Fn (name : string) (args : list (list token)).

(** The lines of a file as the preprocessor sees them. *)
Inductive line : Type :=
  | PragmaOnce
  | Define (m : macro)
  | Code (src : list src_item).

(** The whole of [Passkey.h]: one [#pragma once] and three [#define]s. *)
Definition Passkey_h : list line :=
  [ PragmaOnce; Define PK_BEGIN; Define PK_ALLOW; Define PK_END ].

(** *** Macro replacement *)

Definition lookup_arg (env : list (ident * list token)) (x : ident)
  : option (list token) :=
  snd <$> find (λ p, bool_decide (p.1 = x)) env.

(** Every occurrence of a parameter in the replacement list is replaced by
    the tokens of the corresponding argument. *)
Fixpoint subst (env : list (ident * list token)) (body : list token)
  : list token :=
  match body with
  | [] => []
  | Ident x :: rest =>
      match lookup_arg env x with
      | Some arg => arg ++ subst env rest
      | None => Ident x :: subst env rest
      end
  | t :: rest => t :: subst env rest
  end.

Definition lookup_macro (defs : list macro) (name : string) : option macro :=
  find (λ m, bool_decide (m_name m = name)) defs.

(** Replacement of one item; [None] is a preprocessing error (an unknown
    macro, an object-like macro invoked with arguments or the reverse, or a
    wrong number of arguments). *)
Definition expand (defs : list macro) (i : src_item) : option (list token) :=
  match i with
  | Tok t => Some [t]
  | Obj name =>
      m ← lookup_macro defs name;
      match m_params m with
      | None => Some (m_body m)
      | Some _ => None
      end
  | Fn name args =>
      m ← lookup_macro defs name;
      match m_params m with
      | None => None
      | Some ps =>
          if decide (length ps = length args)
          then Some (subst (zip ps args) (m_body m))
          else None
      end
  end.

Fixpoint expand_all (defs : list macro) (src : list src_item)
  : option (list token) :=
  match src with
  | [] => Some []
  | i :: rest =>
      ts ← expand defs i;
      ts' ← expand_all defs rest;
      Some (ts ++ ts')
  end.

(** A file is read line by line: a [#define] extends the table of macros
    (the latest definition of a name is the one found), code is expanded
    with the table as it stands. *)
Fixpoint preprocess (defs : list macro) (ls : list line)
  : option (list token) :=
  match ls with
  | [] => Some []
  | PragmaOnce :: ls' => preprocess defs ls'
  | Define m :: ls' => preprocess (m :: defs) ls'
  | Code src :: ls' =>
      ts ← expand_all defs src;
      ts' ← preprocess defs ls';
      Some (ts ++ ts')
  end.

(** The macros a file defines, in order. *)
Fixpoint defined (ls : list line) : list macro :=
  match ls with
  | [] => []
  | Define m :: ls' => m :: defined ls'
  | _ :: ls' => defined ls'
  end.

(** The code a file holds outside its directives. *)
Fixpoint own_code (ls : list line) : list src_item :=
  match ls with
  | [] => []
  | Code src :: ls' => src ++ own_code ls'
  | _ :: ls' => own_code ls'
  end.

(** *** Declaring a passkey

    <<
    PK_BEGIN(Name)
        PK_ALLOW(T1)
        ...
        PK_ALLOW(Tk)
        PK_END
    >> *)
Definition declaration (N : ident) (Ts : list ident) : list src_item :=
  Fn "PK_BEGIN" [[Ident N]]
  :: ((λ T, Fn "PK_ALLOW" [[Ident T]]) <$> Ts)
  ++ [Obj "PK_END"].

(** A file that includes the header and then declares one passkey. *)
Definition unit_of (N : ident) (Ts : list ident) : list line :=
  Passkey_h ++ [Code (declaration N Ts)].

End Pp.

(** ** The class definitions the macros expand to *)

Module Cxx.
Import Pp.

Inductive access : Type := Public | Private.

(** The special member functions a passkey declares. *)
Inductive special : Type := DefaultCtor | CopyCtor | CopyAssign.

(** A statement of a function body, kept as its tokens. *)
Definition stmt := list token.

(** A member function is defined by a body or as [= delete]. *)
Inductive fun_def : Type :=
  | Body (b : list stmt)
  | Deleted.

Inductive member_decl : Type :=
  | MFun (a : access) (k : special) (d : fun_def)
  | MData (a : access) (ty : ident) (x : ident)
  | MFriend (T : ident).

Record class_def : Type := ClassDef {
  c_name : ident;
  c_members : list member_decl }.

#[global] Instance access_eq_dec : EqDecision access.
Proof. solve_decision. Defined.
#[global] Instance special_eq_dec : EqDecision special.
Proof. solve_decision. Defined.
#[global] Instance fun_def_eq_dec : EqDecision fun_def.
Proof. solve_decision. Defined.
#[global] Instance member_decl_eq_dec : EqDecision member_decl.
Proof. solve_decision. Defined.

(** *** Parsing

    The member specification of class [N], read with [a] the access in
    force, up to and including the closing [};].  The productions are
    - [private:] and [public:],
    - [friend T;],
    - [N() { }], [N(const N&) { }] and [N& operator=(const N&) = delete;],
    - a data member [T x;].
    A constructor must bear the name of its class. *)
Fixpoint parse_members (N : ident) (a : access) (ts : list token)
  : option (list member_decl) :=
  match ts with
  | [RBrace; Semi] => Some []
  | KwPrivate :: Colon :: ts' => parse_members N Private ts'
  | KwPublic :: Colon :: ts' => parse_members N Public ts'
  | KwFriend :: Ident T :: Semi :: ts' =>
      cons (MFriend T) <$> parse_members N a ts'
  | Ident x :: LParen :: RParen :: LBrace :: RBrace :: ts' =>
      if decide (x = N)
      then cons (MFun a DefaultCtor (Body [])) <$> parse_members N a ts'
      else None
  | Ident x :: LParen :: KwConst :: Ident y :: Amp :: RParen
      :: LBrace :: RBrace :: ts' =>
      if decide (x = N ∧ y = N)
      then cons (MFun a CopyCtor (Body [])) <$> parse_members N a ts'
      else None
  | Ident x :: Amp :: KwOperator :: Assign
      :: LParen :: KwConst :: Ident y :: Amp :: RParen
      :: Assign :: KwDelete :: Semi :: ts' =>
      if decide (x = N ∧ y = N)
      then cons (MFun a CopyAssign Deleted) <$> parse_members N a ts'
      else None
  | Ident ty :: Ident x :: Semi :: ts' =>
      cons (MData a ty x) <$> parse_members N a ts'
  | _ => None
  end.

(** A translation unit that is one class definition: [class N { ... };].
    Members of a [class] are private until an access specifier says
    otherwise. *)
Definition parse_class (ts : list token) : option class_def :=
  match ts with
  | KwClass :: Ident N :: LBrace :: ts' => ClassDef N <$> parse_members N Private ts'
  | _ => None
  end.

(** *** Access *)

(** Where a use of the class stands: inside the member declarations of a
    class [C] declared at namespace scope (the classes nested in [C] and
    the classes local to its member functions are among them, see [host]),
    or outside every class. *)
Inductive scope : Type :=
  | Member (C : ident)
  | NonMember.

Definition friends (c : class_def) : list ident :=
  omap (λ d, match d with MFriend T => Some T | _ => None end) (c_members c).

Definition data_members (c : class_def) : list (ident * ident) :=
  omap (λ d, match d with MData _ ty x => Some (ty, x) | _ => None end)
       (c_members c).

(** The types a class grants access to. *)
Definition granted (c : class_def) : gset ident := list_to_set (friends c).

(** Private members of [c] can be named by the members of [c] and by the
    members of the classes [c] declares as friends. *)
Definition privileged (c : class_def) (s : scope) : bool :=
  match s with
  | Member C => bool_decide (C = c_name c ∨ C ∈ friends c)
  | NonMember => false
  end.

Definition accessible (c : class_def) (a : access) (s : scope) : bool :=
  match a with
  | Public => true
  | Private => privileged c s
  end.

(** The declaration of a special member in the class, if it has one. *)
Definition declared (c : class_def) (k : special) : option (access * fun_def) :=
  head (omap (λ d, match d with
                   | MFun a k' df => if decide (k' = k) then Some (a, df) else None
                   | _ => None
                   end) (c_members c)).

Definition declares_constructor (c : class_def) : bool :=
  bool_decide (is_Some (declared c DefaultCtor) ∨ is_Some (declared c CopyCtor)).

(** What a use of a special member resolves to.  A class that declares no
    constructor gets a public default constructor; a class that declares
    no copy constructor, or no copy assignment operator, gets a public one. *)
Inductive resolved : Type :=
  | User (a : access) (d : fun_def)
  | ImplicitPublic
  | Absent.

Definition resolve (c : class_def) (k : special) : resolved :=
  match declared c k with
  | Some (a, d) => User a d
  | None =>
      match k with
      | DefaultCtor => if declares_constructor c then Absent else ImplicitPublic
      | CopyCtor | CopyAssign => ImplicitPublic
      end
  end.

(** *** Diagnostics *)

Inductive diagnostic : Type :=
  | Malformed            (* preprocessing or parsing failed *)
  | NoSuchFunction       (* no function to call *)
  | Inaccessible         (* the function is private here *)
  | UseOfDeleted.        (* the function is deleted *)

#[global] Instance diagnostic_eq_dec : EqDecision diagnostic.
Proof. solve_decision. Defined.

(** The uses of a class [N] the header speaks of: building one ([N()]),
    copying one ([N(k)]), assigning one ([a = b]).  [check c s k] is [None]
    when the use of [k] written at [s] is accepted, and the diagnostic
    otherwise. *)
Definition check (c : class_def) (s : scope) (k : special) : option diagnostic :=
  match resolve c k with
  | Absent => Some NoSuchFunction
  | ImplicitPublic => None
  | User a d =>
      if accessible c a s
      then match d with Deleted => Some UseOfDeleted | Body _ => None end
      else Some Inaccessible
  end.

(** From the lines of a file to its class. *)
Definition compile (ls : list line) : option class_def :=
  preprocess [] ls ≫= parse_class.

(** A use of the class a file declares, written at [s]. *)
Definition compile_use (ls : list line) (s : scope) (k : special)
  : option diagnostic :=
  match compile ls with
  | None => Some Malformed
  | Some c => check c s k
  end.

End Cxx.

(** ** Running a special member function *)

Module Run.
Import Pp Cxx.

(** A statement ends normally in a new state, or raises. *)
Inductive outcome (S : Type) : Type :=
  | Normal (σ : S)
  | Raises.
Arguments Normal {S} σ.
Arguments Raises {S}.

Section Exec.
Context {State : Type}.

(** The meaning of one statement is the language's, not the header's: the
    results below hold for every choice of it. *)
Variable exec_stmt : stmt → State → outcome State.

(** The statements of a body run in order; the first that raises ends
    the run. *)
Fixpoint exec_body (b : list stmt) (σ : State) : outcome State :=
  match b with
  | [] => Normal σ
  | s :: b' =>
      match exec_stmt s σ with
      | Normal σ' => exec_body b' σ'
      | Raises => Raises
      end
  end.

(** Running the special member [k] a class declares with a body; [None]
    when there is no such body to run. *)
Definition run (c : class_def) (k : special) (σ : State)
  : option (outcome State) :=
  match resolve c k with
  | User _ (Body b) => Some (exec_body b σ)
  | _ => None
  end.
End Exec.

End Run.

(** ** Functions locked by a passkey

    The header's usage notes: a locked function takes a nameless constant
    reference to the passkey as its last parameter,
    [void MyClass::MyLockedFunction(int _foo, const MyClassDefaultPasskey&);]
    and a caller passes an inline-constructed passkey,
    [aClassObject->MyLockedFunction(0, MyClassDefaultPasskey());]. *)

Module Lock.
Import Pp Cxx.

(** The class that holds the locked function ([l_class], with whatever
    friends it declares itself), the access of the function in it, and the
    passkey type its last parameter names. *)
Record locked : Type := Locked {
  l_class : class_def;
  l_access : access;
  l_key : ident }.

(** The type names the holder of the locked function has to write. *)
Definition mentions (f : locked) : list ident :=
  c_name (l_class f) :: l_key f :: friends (l_class f).

(** A call of [f] written at [s] with [Key()] as last argument, [key] being
    the class the passkey's name denotes: the function has to be accessible
    at [s], and so has the default constructor of the passkey. *)
Definition call (key : class_def) (f : locked) (s : scope) : option diagnostic :=
  if decide (l_key f = c_name key)
  then if accessible (l_class f) (l_access f) s
       then check key s DefaultCtor
       else Some Inaccessible
  else Some NoSuchFunction.

Definition compile_call (ls : list line) (f : locked) (s : scope)
  : option diagnostic :=
  match compile ls with
  | None => Some Malformed
  | Some key => call key f s
  end.

End Lock.

(** ** The class a passkey declaration denotes *)

Import Pp Cxx Run Lock.

(** The tokens [PK_BEGIN(N)] is replaced by. *)
Definition begin_tokens (N : ident) : list token :=
  [ KwClass; Ident N; LBrace; KwPrivate; Colon;
    Ident N; LParen; RParen; LBrace; RBrace;
    Ident N; LParen; KwConst; Ident N; Amp; RParen; LBrace; RBrace;
    Ident N; Amp; KwOperator; Assign; LParen; KwConst; Ident N; Amp; RParen;
    Assign; KwDelete; Semi ].

Definition allow_tokens (Ts : list ident) : list token :=
  Ts ≫= λ T, [KwFriend; Ident T; Semi].

(** The members every passkey has, whatever its friends. *)
Definition key_members : list member_decl :=
  [ MFun Private DefaultCtor (Body []);
    MFun Private CopyCtor (Body []);
    MFun Private CopyAssign Deleted ].

Definition passkey (N : ident) (Ts : list ident) : class_def :=
  ClassDef N (key_members ++ (MFriend <$> Ts)).

(** In scope [s] the private members of passkey [N] with allow-list [Ts] can
    be named: [s] is inside [N] or inside one of [Ts]. *)
Definition allowed (N : ident) (Ts : list ident) (s : scope) : Prop :=
  ∃ C, s = Member C ∧ (C = N ∨ C ∈ Ts).

#[global] Instance allowed_dec N Ts s : Decision (allowed N Ts s).
Proof.
  destruct s as [C|].
  - destruct (decide (C = N ∨ C ∈ Ts)) as [H|H].
    + left. by exists C.
    + right. intros (C' & [= <-] & H'). by apply H.
  - right. by intros (C & [=] & _).
Defined.

(** The table of macros in force after the header: [preprocess] puts the
    latest definition first. *)
Definition header_macros : list macro := [PK_END; PK_ALLOW; PK_BEGIN].

(** The kinds of member declaration a passkey holds. *)
Definition is_private_constructor (d : member_decl) : bool :=
  match d with
  | MFun Private DefaultCtor _ | MFun Private CopyCtor _ => true
  | _ => false
  end.

Definition is_deleted_assignment (d : member_decl) : bool :=
  match d with
  | MFun Private CopyAssign Deleted => true
  | _ => false
  end.

Definition is_friend_decl (d : member_decl) : bool :=
  match d with
  | MFriend _ => true
  | _ => false
  end.

Definition is_public (d : member_decl) : bool :=
  match d with
  | MFun Public _ _ | MData Public _ _ => true
  | _ => false
  end.

(** The example of the header:
    [PK_BEGIN(MyClassDefaultPasskey) PK_ALLOW(OneClass) PK_ALLOW(AnotherClass) PK_END]. *)
Definition example_unit : list line :=
  unit_of "MyClassDefaultPasskey" ["OneClass"; "AnotherClass"].

(** [MyClass] of the header's usage notes, with [MyLockedFunction] public
    and no friend declared. *)
Definition example_locked : locked :=
  Locked (ClassDef "MyClass" []) Public "MyClassDefaultPasskey".

(** ** Types, and where their code stands

    A type that wants a passkey is a class declared at namespace scope, a
    class nested in another class or local to one of its member functions,
    or a class local to a non-member function.  [PK_ALLOW(T)] names a class
    of namespace scope. *)
Inductive type_site : Type :=
  | Top (C : ident)
  | Within (C : ident) (outer : type_site)
  | LocalToFunction (C : ident).

#[global] Instance type_site_eq_dec : EqDecision type_site.
Proof. solve_decision. Defined.

(** The scope the code of a type belongs to.  A nested class is a member of
    the class around it and a local class has the access of the function
    around it, so both stand among the member declarations of the outermost
    class: what a friend declaration opens to a class it opens to them. *)
Fixpoint host (t : type_site) : scope :=
  match t with
  | Top C => Member C
  | Within _ outer => host outer
  | LocalToFunction _ => NonMember
  end.

(** [inside t C]: [t] is the class [C] of namespace scope, or is nested in
    it or local to it, at any depth. *)
Fixpoint inside (t : type_site) (C : ident) : Prop :=
  match t with
  | Top D => D = C
  | Within _ outer => inside outer C
  | LocalToFunction _ => False
  end.

(** ** Ways of passing the passkey to a locked function

    The last parameter of a locked function is a constant reference.  The
    caller may build the passkey at the call ([Key()], the header's way),
    copy one it has ([Key(k)]), or name a [Key] it did not build: a
    reference it was handed, a member of a union whose constructor leaves
    it unbuilt, an object declared [extern].  Binding the reference to such
    a [Key] calls no member of the passkey. *)
Inductive key_arg : Type :=
  | Inline
  | CopyOf
  | Existing.

Definition arg_check (key : class_def) (s : scope) (a : key_arg)
  : option diagnostic :=
  match a with
  | Inline => check key s DefaultCtor
  | CopyOf => check key s CopyCtor
  | Existing => None
  end.

(** [call] with the argument left open; [call] is the case [Inline]. *)
Definition call_with (key : class_def) (f : locked) (s : scope) (a : key_arg)
  : option diagnostic :=
  if decide (l_key f = c_name key)
  then if accessible (l_class f) (l_access f) s
       then arg_check key s a
       else Some Inaccessible
  else Some NoSuchFunction.

Definition compile_call_with (ls : list line) (f : locked) (s : scope)
    (a : key_arg) : option diagnostic :=
  match compile ls with
  | None => Some Malformed
  | Some key => call_with key f s a
  end.

(** ** Several passkeys in one file

    The header lets passkeys be declared wherever the user likes; a file
    may hold several declarations, one after the other. *)

Definition allows (Ts : list ident) : list src_item :=
  (λ T, Fn "PK_ALLOW" [[Ident T]]) <$> Ts.

Definition declarations (ds : list (ident * list ident)) : list src_item :=
  ds ≫= λ d, declaration d.1 d.2.

Definition unit_of_all (ds : list (ident * list ident)) : list line :=
  Passkey_h ++ [Code (declarations ds)].

(** The tokens of the first declaration at the top level and the tokens
    after it: a class definition runs to the [;] that follows the [}]
    closing its first [{].  [depth] counts the braces open so far. *)
Fixpoint split_decl (depth : nat) (ts : list token)
  : option (list token * list token) :=
  match ts with
  | [] => None
  | LBrace :: ts' => prod_map (cons LBrace) id <$> split_decl (S depth) ts'
  | RBrace :: ts' =>
      match depth with
      | 0 => None
      | 1 =>
          match ts' with
          | Semi :: rest => Some ([RBrace; Semi], rest)
          | _ => None
          end
      | S d => prod_map (cons RBrace) id <$> split_decl d ts'
      end
  | t :: ts' => prod_map (cons t) id <$> split_decl depth ts'
  end.

(** A sequence of class definitions.  Each round takes one definition off
    the front; [fuel] bounds the rounds. *)
Fixpoint parse_classes (fuel : nat) (ts : list token) : option (list class_def) :=
  match ts with
  | [] => Some []
  | _ :: _ =>
      match fuel with
      | 0 => None
      | S fuel' =>
          p ← split_decl 0 ts;
          c ← parse_class p.1;
          cs ← parse_classes fuel' p.2;
          Some (c :: cs)
      end
  end.

(** From the lines of a file to its classes.  Every definition holds a
    token, so the number of tokens is fuel enough; a class defined twice is
    an error. *)
Definition compile_all (ls : list line) : option (list class_def) :=
  ts ← preprocess [] ls;
  cs ← parse_classes (length ts) ts;
  if decide (NoDup (c_name <$> cs)) then Some cs else None.

Definition lookup_class (cs : list class_def) (N : ident) : option class_def :=
  find (λ c, bool_decide (c_name c = N)) cs.

(** The class the name [N] denotes in a file. *)
Definition class_named (ls : list line) (N : ident) : option class_def :=
  compile_all ls ≫= λ cs, lookup_class cs N.

(** The tokens one declaration, and a sequence of declarations, is
    replaced by. *)
Definition decl_tokens (N : ident) (Ts : list ident) : list token :=
  begin_tokens N ++ allow_tokens Ts ++ [RBrace; Semi].

Definition all_tokens (ds : list (ident * list ident)) : list token :=
  ds ≫= λ d, decl_tokens d.1 d.2.

(** The identifiers among some tokens. *)
Definition idents (ts : list token) : list ident :=
  omap (λ t, match t with Ident x => Some x | _ => None end) ts.

Lemma expand_begin N :
  expand header_macros (Fn "PK_BEGIN" [[Ident N]]) = Some (begin_tokens N).
Proof. reflexivity. Qed.

Lemma expand_allow T :
  expand header_macros (Fn "PK_ALLOW" [[Ident T]]) = Some [KwFriend; Ident T; Semi].
Proof. reflexivity. Qed.

Lemma expand_end :
  expand header_macros (Obj "PK_END") = Some [RBrace; Semi].
Proof. reflexivity. Qed.

Lemma expand_allows Ts :
  expand_all header_macros (((λ T, Fn "PK_ALLOW" [[Ident T]]) <$> Ts) ++ [Obj "PK_END"])
  = Some (allow_tokens Ts ++ [RBrace; Semi]).
Proof.
  induction Ts as [|T Ts IH]; [reflexivity|].
  change (expand_all header_macros
            (Fn "PK_ALLOW" [[Ident T]]
             :: ((λ T, Fn "PK_ALLOW" [[Ident T]]) <$> Ts) ++ [Obj "PK_END"])
          = Some ([KwFriend; Ident T; Semi] ++ allow_tokens Ts ++ [RBrace; Semi])).
  cbn [expand_all]. rewrite expand_allow, IH. reflexivity.
Qed.

Lemma preprocess_unit N Ts :
  preprocess [] (unit_of N Ts)
  = Some (begin_tokens N ++ allow_tokens Ts ++ [RBrace; Semi]).
Proof.
  unfold unit_of, Passkey_h, declaration.
  cbn [app preprocess]. fold header_macros.
  cbn [expand_all]. rewrite expand_begin, expand_allows. cbn [mbind option_bind].
  by rewrite app_nil_r.
Qed.

Lemma parse_members_allows N a Ts :
  parse_members N a (allow_tokens Ts ++ [RBrace; Semi]) = Some (MFriend <$> Ts).
Proof.
  induction Ts as [|T Ts IH]; [reflexivity|].
  change (parse_members N a
            (KwFriend :: Ident T :: Semi :: allow_tokens Ts ++ [RBrace; Semi])
          = Some (MFriend T :: (MFriend <$> Ts))).
  cbn [parse_members]. by rewrite IH.
Qed.

Lemma parse_passkey N Ts :
  parse_class (begin_tokens N ++ allow_tokens Ts ++ [RBrace; Semi])
  = Some (passkey N Ts).
Proof.
  unfold begin_tokens, parse_class. cbn [app parse_members].
  rewrite !decide_True by done.
  rewrite parse_members_allows. reflexivity.
Qed.

(** A passkey declaration compiles, to the class [passkey N Ts]. *)
Lemma compile_unit N Ts : compile (unit_of N Ts) = Some (passkey N Ts).
Proof.
  unfold compile. rewrite preprocess_unit. cbn [mbind option_bind].
  apply parse_passkey.
Qed.

(** ** Facts about [passkey N Ts] shared by the theorems below *)

Lemma friends_passkey N Ts : friends (passkey N Ts) = Ts.
Proof.
  unfold friends, passkey. cbn [c_members key_members app omap list_omap].
  induction Ts as [|T Ts IH]; [reflexivity|].
  cbn [fmap list_fmap omap list_omap]. by rewrite IH.
Qed.

Lemma data_members_passkey N Ts : data_members (passkey N Ts) = [].
Proof.
  unfold data_members, passkey. cbn [c_members key_members app omap list_omap].
  induction Ts as [|T Ts IH]; [reflexivity|].
  cbn [fmap list_fmap omap list_omap]. exact IH.
Qed.

Lemma declared_passkey N Ts k :
  declared (passkey N Ts) k
  = Some (Private, match k with CopyAssign => Deleted | _ => Body [] end).
Proof. by destruct k. Qed.

Lemma resolve_passkey N Ts k :
  resolve (passkey N Ts) k
  = User Private match k with CopyAssign => Deleted | _ => Body [] end.
Proof. unfold resolve. by rewrite declared_passkey. Qed.

Lemma privileged_passkey N Ts s :
  privileged (passkey N Ts) s = bool_decide (allowed N Ts s).
Proof.
  destruct s as [C|]; cbn [privileged].
  - rewrite friends_passkey. cbn [c_name passkey].
    apply bool_decide_ext. split.
    + intros H. by exists C.
    + by intros (C' & [= <-] & H).
  - symmetry. apply bool_decide_eq_false. by intros (C & [=] & _).
Qed.

(** The diagnostic of each use of a passkey, in each scope. *)
Lemma check_passkey N Ts s k :
  check (passkey N Ts) s k
  = if bool_decide (allowed N Ts s)
    then match k with CopyAssign => Some UseOfDeleted | _ => None end
    else Some Inaccessible.
Proof.
  unfold check. rewrite resolve_passkey. cbn [accessible].
  rewrite privileged_passkey. by destruct k.
Qed.

Lemma compile_use_passkey N Ts s k :
  compile_use (unit_of N Ts) s k
  = if bool_decide (allowed N Ts s)
    then match k with CopyAssign => Some UseOfDeleted | _ => None end
    else Some Inaccessible.
Proof. unfold compile_use. rewrite compile_unit. apply check_passkey. Qed.

Lemma compile_use_accepts N Ts s k :
  compile_use (unit_of N Ts) s k = None ↔ allowed N Ts s ∧ k ≠ CopyAssign.
Proof.
  rewrite compile_use_passkey.
  case_bool_decide as H; destruct k; split; try done; by intros [? ?].
Qed.

Lemma compile_use_ctor N Ts s k :
  k ≠ CopyAssign → compile_use (unit_of N Ts) s k = None ↔ allowed N Ts s.
Proof. intros Hk. rewrite compile_use_accepts. tauto. Qed.

Lemma compile_use_refuses N Ts s k :
  ¬ allowed N Ts s → compile_use (unit_of N Ts) s k = Some Inaccessible.
Proof. intros H. rewrite compile_use_passkey. by rewrite bool_decide_eq_false_2. Qed.

Lemma compile_call_passkey N Ts f s :
  compile_call (unit_of N Ts) f s
  = if decide (l_key f = N)
    then if accessible (l_class f) (l_access f) s
         then compile_use (unit_of N Ts) s DefaultCtor
         else Some Inaccessible
    else Some NoSuchFunction.
Proof. unfold compile_call, compile_use. by rewrite compile_unit. Qed.

Lemma compile_call_refuses N Ts f s :
  l_key f = N → ¬ allowed N Ts s →
  compile_call (unit_of N Ts) f s = Some Inaccessible.
Proof.
  intros Hf Hs. rewrite compile_call_passkey, decide_True by done.
  rewrite (compile_use_refuses _ _ _ _ Hs). by destruct (accessible _ _ _).
Qed.

Lemma allowed_nil N s : allowed N [] s ↔ s = Member N.
Proof.
  split.
  - intros (C & -> & [->|H]); [done|]. by apply elem_of_nil in H.
  - intros ->. exists N. auto.
Qed.

Lemma run_passkey {State} (exec_stmt : stmt → State → outcome State) N Ts k σ :
  k ≠ CopyAssign → run exec_stmt (passkey N Ts) k σ = Some (Normal σ).
Proof. unfold run. rewrite resolve_passkey. by destruct k. Qed.

Lemma begin_tokens_idents N x : Ident x ∈ begin_tokens N → x = N.
Proof.
  unfold begin_tokens. intros H.
  repeat (apply elem_of_cons in H as [H|H]; [congruence|]).
  by apply elem_of_nil in H.
Qed.

(** ** Concrete declarations *)

Example example_tokens :
  preprocess [] example_unit
  = Some [ KwClass; Ident "MyClassDefaultPasskey"; LBrace; KwPrivate; Colon;
           Ident "MyClassDefaultPasskey"; LParen; RParen; LBrace; RBrace;
           Ident "MyClassDefaultPasskey"; LParen; KwConst;
             Ident "MyClassDefaultPasskey"; Amp; RParen; LBrace; RBrace;
           Ident "MyClassDefaultPasskey"; Amp; KwOperator; Assign; LParen;
             KwConst; Ident "MyClassDefaultPasskey"; Amp; RParen;
             Assign; KwDelete; Semi;
           KwFriend; Ident "OneClass"; Semi;
           KwFriend; Ident "AnotherClass"; Semi;
           RBrace; Semi ].
Proof. reflexivity. Qed.

Example example_class :
  compile example_unit
  = Some (ClassDef "MyClassDefaultPasskey"
            [ MFun Private DefaultCtor (Body []);
              MFun Private CopyCtor (Body []);
              MFun Private CopyAssign Deleted;
              MFriend "OneClass"; MFriend "AnotherClass" ]).
Proof. reflexivity. Qed.

Example example_friend_builds :
  compile_use example_unit (Member "OneClass") DefaultCtor = None.
Proof. reflexivity. Qed.

Example example_stranger_refused :
  compile_use example_unit (Member "ThirdClass") DefaultCtor = Some Inaccessible
  ∧ compile_use example_unit NonMember DefaultCtor = Some Inaccessible.
Proof. split; reflexivity. Qed.

Example example_friend_copies :
  compile_use example_unit (Member "AnotherClass") CopyCtor = None.
Proof. reflexivity. Qed.

Example example_nobody_assigns :
  compile_use example_unit (Member "OneClass") CopyAssign = Some UseOfDeleted
  ∧ compile_use example_unit (Member "ThirdClass") CopyAssign = Some Inaccessible.
Proof. split; reflexivity. Qed.

(** Outside the macros the parser and the rules do their ordinary work: a
    class with a public section, a class with no declared constructor, a
    name used as a type where the header wants the class's own. *)
Example public_constructor_is_open :
  (parse_class [ KwClass; Ident "K"; LBrace; KwPublic; Colon;
                 Ident "K"; LParen; RParen; LBrace; RBrace; RBrace; Semi ]
     ≫= λ c, check c NonMember DefaultCtor) = None.
Proof. reflexivity. Qed.

Example empty_class_is_open :
  (parse_class [ KwClass; Ident "K"; LBrace; RBrace; Semi ]
     ≫= λ c, Some (check c NonMember DefaultCtor, check c NonMember CopyCtor,
                   check c NonMember CopyAssign))
  = Some (None, None, None).
Proof. reflexivity. Qed.

Example foreign_constructor_rejected :
  parse_class [ KwClass; Ident "K"; LBrace;
                Ident "J"; LParen; RParen; LBrace; RBrace; RBrace; Semi ] = None.
Proof. reflexivity. Qed.

Example missing_end_rejected :
  compile (Passkey_h ++ [Code [Fn "PK_BEGIN" [[Ident "K"]]]]) = None.
Proof. reflexivity. Qed.

Example wrong_arity_rejected :
  compile (Passkey_h ++ [Code [Fn "PK_BEGIN" [[Ident "K"]; [Ident "J"]]; Obj "PK_END"]])
  = None.
Proof. reflexivity. Qed.

Example example_call :
  compile_call example_unit example_locked (Member "OneClass") = None
  ∧ compile_call example_unit example_locked (Member "MyClass") = Some Inaccessible
  ∧ compile_call example_unit example_locked NonMember = Some Inaccessible.
Proof. repeat split; reflexivity. Qed.

(** ** The allow-list decides who can build a passkey *)

Lemma host_allowed N Ts t :
  allowed N Ts (host t) ↔ ∃ C, inside t C ∧ (C = N ∨ C ∈ Ts).
Proof.
  induction t as [D|D outer IH|D]; cbn [host inside].
  - split.
    + intros (C & [= <-] & H). by exists D.
    + intros (C & <- & H). by exists D.
  - exact IH.
  - split.
    + by intros (C & [=] & _).
    + by intros (C & [] & _).
Qed.

Lemma call_with_inline key f s : call_with key f s Inline = call key f s.
Proof. reflexivity. Qed.

Lemma compile_call_with_passkey N Ts f s a :
  compile_call_with (unit_of N Ts) f s a
  = if decide (l_key f = N)
    then if accessible (l_class f) (l_access f) s
         then match a with
              | Inline => compile_use (unit_of N Ts) s DefaultCtor
              | CopyOf => compile_use (unit_of N Ts) s CopyCtor
              | Existing => None
              end
         else Some Inaccessible
    else Some NoSuchFunction.
Proof.
  unfold compile_call_with, compile_use. rewrite compile_unit.
  unfold call_with. cbn [c_name passkey]. by destruct a.
Qed.

(** The claim C1 speaks of every type [C] that is not named by a [PK_ALLOW].
    A class nested in an allowed class is such a type: in the header's
    example [Inner], nested in [OneClass], is neither [OneClass] nor
    [AnotherClass] nor the passkey, and it builds and copies the passkey
    with no diagnostic, since it stands among the member declarations of
    the friend [OneClass]. *)
Lemma nested_type_builds_passkey :
  (Within "Inner" (Top "OneClass") ∉ Top <$> ["OneClass"; "AnotherClass"])
  ∧ Within "Inner" (Top "OneClass") ≠ Top "MyClassDefaultPasskey"
  ∧ compile_use example_unit (host (Within "Inner" (Top "OneClass"))) DefaultCtor
    = None
  ∧ compile_use example_unit (host (Within "Inner" (Top "OneClass"))) CopyCtor
    = None.
Proof.
  split; [|split; [discriminate|split; reflexivity]].
  cbn [fmap list_fmap]. intros H.
  repeat (apply elem_of_cons in H as [H|H]; [discriminate|]).
  by apply elem_of_nil in H.
Qed.

(** C1, amended.  For a passkey declared by [PK_BEGIN(N) PK_ALLOW(T)...
    PK_END] and a type [C] that builds an [N] (by [N()], or by copying
    one): when [C] is one of the types named by the [PK_ALLOW]s, or is
    nested in or local to one of them at any depth, the construction is
    accepted; when [C] is none of these, and neither [N] nor within [N], it
    is refused, the constructor being private there. *)
Theorem allow_list_gates_construction (N : ident) (Ts : list ident)
    (t : type_site) :
  (t ∈ Top <$> Ts →
     compile_use (unit_of N Ts) (host t) DefaultCtor = None
     ∧ compile_use (unit_of N Ts) (host t) CopyCtor = None)
  ∧ ((∃ C, inside t C ∧ C ∈ Ts) →
     compile_use (unit_of N Ts) (host t) DefaultCtor = None
     ∧ compile_use (unit_of N Ts) (host t) CopyCtor = None)
  ∧ ((∀ C, inside t C → (C ∉ Ts) ∧ C ≠ N) →
     compile_use (unit_of N Ts) (host t) DefaultCtor = Some Inaccessible
     ∧ compile_use (unit_of N Ts) (host t) CopyCtor = Some Inaccessible).
Proof.
  assert ((∃ C, inside t C ∧ C ∈ Ts) →
          compile_use (unit_of N Ts) (host t) DefaultCtor = None
          ∧ compile_use (unit_of N Ts) (host t) CopyCtor = None) as Hin.
  { intros (C & HC & HTs).
    split; apply compile_use_ctor; try done; apply host_allowed; exists C; auto. }
  split; [|split; [exact Hin|]].
  - intros Ht. apply list_elem_of_fmap in Ht as (C & -> & HC).
    apply Hin. by exists C.
  - intros Hout. split; apply compile_use_refuses;
      rewrite host_allowed; intros (C & HC & H);
      destruct (Hout C HC) as [HTs HN]; destruct H; contradiction.
Qed.

Lemma allow_list_gates_construction_witness :
  compile_use example_unit
    (host (Within "Local" (Within "Inner" (Top "AnotherClass")))) DefaultCtor
  = None
  ∧ compile_use example_unit (host (Top "ThirdClass")) DefaultCtor
    = Some Inaccessible
  ∧ compile_use example_unit (host (Within "Inner" (LocalToFunction "Helper")))
      CopyCtor = Some Inaccessible.
Proof.
  split; [|split].
  - apply (allow_list_gates_construction
             "MyClassDefaultPasskey" ["OneClass"; "AnotherClass"]
             (Within "Local" (Within "Inner" (Top "AnotherClass")))).
    exists "AnotherClass". split; [reflexivity|]. rewrite !elem_of_cons. auto.
  - apply (allow_list_gates_construction
             "MyClassDefaultPasskey" ["OneClass"; "AnotherClass"]
             (Top "ThirdClass")).
    intros C <-. split; [|discriminate]. intros H.
    repeat (apply elem_of_cons in H as [H|H]; [discriminate|]).
    by apply elem_of_nil in H.
  - apply (allow_list_gates_construction
             "MyClassDefaultPasskey" ["OneClass"; "AnotherClass"]
             (Within "Inner" (LocalToFunction "Helper"))).
    intros C [].
Defined.

(** ** Copying, assigning, building *)

(** The claim C2 has copying impossible in every context.  The copy
    constructor is private with a body, not deleted: in the header's own
    example the friend [OneClass] copies a passkey and nothing is
    diagnosed.  Building one is open inside the passkey's own class as
    well. *)
Lemma friend_copies_passkey :
  compile_use example_unit (Member "OneClass") CopyCtor = None
  ∧ compile_use example_unit (Member "MyClassDefaultPasskey") DefaultCtor = None
  ∧ "MyClassDefaultPasskey" ∉ ["OneClass"; "AnotherClass"].
Proof.
  split; [reflexivity|]. split; [reflexivity|].
  intros H. repeat (apply elem_of_cons in H as [H|H]; [discriminate|]).
  by apply elem_of_nil in H.
Qed.

(** C2, amended.  For every passkey and every scope: copying a passkey is
    accepted exactly where its private members can be named (inside a
    declared friend or inside the passkey itself) and refused everywhere
    else; assigning one passkey to another is refused everywhere; building
    one by default is accepted exactly inside a declared friend or the
    passkey itself. *)
Theorem passkey_copy_assign_build (N : ident) (Ts : list ident) (s : scope) :
  (compile_use (unit_of N Ts) s CopyCtor = None ↔ allowed N Ts s)
  ∧ is_Some (compile_use (unit_of N Ts) s CopyAssign)
  ∧ (compile_use (unit_of N Ts) s DefaultCtor = None ↔ allowed N Ts s).
Proof.
  split; [by apply compile_use_ctor|]. split; [|by apply compile_use_ctor].
  rewrite compile_use_passkey. by case_bool_decide.
Qed.

(** ** What the header holds and what a declaration expands to *)

(** The claim C3 has the class contain only private constructors and friend
    declarations.  It also declares [operator=], deleted: the members of the
    header's example are not all constructors or friends. *)
Lemma passkey_declares_assignment :
  (forallb (λ d, is_private_constructor d || is_friend_decl d) ∘ c_members)
    <$> compile example_unit = Some false
  ∧ (λ c, bool_decide (MFun Private CopyAssign Deleted ∈ c_members c))
    <$> compile example_unit = Some true.
Proof. split; reflexivity. Qed.

(** C3, amended.  The header defines exactly the macros [PK_BEGIN],
    [PK_ALLOW] and [PK_END] and holds no code outside them: alone it
    contributes no token.  Every declaration [PK_BEGIN(N) PK_ALLOW(T)...
    PK_END] expands to one class definition whose members are private
    constructors, a private deleted copy assignment operator, and friend
    declarations, and nothing else. *)
Theorem header_is_three_macros :
  m_name <$> defined Passkey_h = ["PK_BEGIN"; "PK_ALLOW"; "PK_END"]
  ∧ own_code Passkey_h = []
  ∧ preprocess [] Passkey_h = Some []
  ∧ ∀ (N : ident) (Ts : list ident), ∃ cls,
      compile (unit_of N Ts) = Some cls
      ∧ c_name cls = N
      ∧ Forall (λ d, is_private_constructor d || is_deleted_assignment d
                     || is_friend_decl d = true) (c_members cls).
Proof.
  repeat split; try reflexivity.
  intros N Ts. exists (passkey N Ts). split; [apply compile_unit|].
  split; [reflexivity|].
  unfold passkey. cbn [c_members]. apply Forall_app. split.
  - unfold key_members. by repeat constructor.
  - apply Forall_fmap, Forall_forall. by intros T _.
Qed.

(** ** Errors come from the compiler, never from the run *)

(** The claim C4 has an error exactly when disallowed code builds a passkey.
    Assignment is deleted for everyone: in the header's example the friend
    [OneClass], which is allowed and builds nothing, is refused when it
    assigns one passkey to another. *)
Lemma friend_assignment_diagnosed :
  allowed "MyClassDefaultPasskey" ["OneClass"; "AnotherClass"] (Member "OneClass")
  ∧ compile_use example_unit (Member "OneClass") DefaultCtor = None
  ∧ compile_use example_unit (Member "OneClass") CopyAssign = Some UseOfDeleted.
Proof.
  split; [|split; reflexivity].
  exists "OneClass". split; [reflexivity|]. right. rewrite !elem_of_cons. auto.
Qed.

(** C4, amended.  For every passkey, scope and use (building, copying,
    assigning): a diagnostic is issued exactly when the use is an
    assignment or the scope is not allowed (it is neither inside a declared
    friend nor inside the passkey itself), and it is a diagnostic of
    compilation.  Whatever the statements of the language do, an accepted
    use ends normally, in the state it started in; no run of a special
    member of a passkey raises. *)
Theorem errors_are_compile_time {State : Type}
    (exec_stmt : stmt → State → outcome State)
    (N : ident) (Ts : list ident) (s : scope) (k : special) (σ : State) :
  ∃ cls, compile (unit_of N Ts) = Some cls
    ∧ (is_Some (compile_use (unit_of N Ts) s k)
       ↔ k = CopyAssign ∨ ¬ allowed N Ts s)
    ∧ (compile_use (unit_of N Ts) s k = None →
         run exec_stmt cls k σ = Some (Normal σ))
    ∧ run exec_stmt cls k σ ≠ Some Raises.
Proof.
  exists (passkey N Ts). split; [apply compile_unit|]. split; [|split].
  - rewrite <-not_eq_None_Some, compile_use_accepts.
    destruct (decide (allowed N Ts s)), (decide (k = CopyAssign)); tauto.
  - intros [_ Hk]%compile_use_accepts. by apply run_passkey.
  - unfold run. rewrite resolve_passkey. by destruct k.
Qed.

(** ** Building a passkey does nothing *)

(** C5. For every passkey: the bodies of its default and copy constructors
    are empty, the class has no data member, and running either
    constructor, whatever the statements of the language do, ends normally
    in the very state it started in. *)
Theorem construction_is_a_no_op (N : ident) (Ts : list ident) :
  ∃ cls, compile (unit_of N Ts) = Some cls
    ∧ declared cls DefaultCtor = Some (Private, Body [])
    ∧ declared cls CopyCtor = Some (Private, Body [])
    ∧ data_members cls = []
    ∧ ∀ (State : Type) (exec_stmt : stmt → State → outcome State) (σ : State),
        run exec_stmt cls DefaultCtor σ = Some (Normal σ)
        ∧ run exec_stmt cls CopyCtor σ = Some (Normal σ).
Proof.
  exists (passkey N Ts). split; [apply compile_unit|].
  rewrite !declared_passkey, data_members_passkey. repeat split.
Qed.

(** ** The holder of a locked function names no caller *)

(** C6. The names of the allowed callers enter a passkey through [PK_ALLOW]
    alone: [PK_BEGIN(N)] yields no identifier but [N], [PK_END] yields none,
    [PK_ALLOW(T)] yields [friend T;], and the friends of the class are the
    allow-list.  A class that holds a public function locked by the passkey
    names the passkey and not the callers: whatever friends it declares
    (none included), a call is accepted exactly where building the passkey
    is, so an allowed caller the holder never mentions can call. *)
Theorem holder_names_no_caller (N : ident) (Ts : list ident) :
  (∀ x, Ident x ∈ default [] (expand header_macros (Fn "PK_BEGIN" [[Ident N]]))
        → x = N)
  ∧ (∀ x, Ident x ∉ default [] (expand header_macros (Obj "PK_END")))
  ∧ (∀ T, expand header_macros (Fn "PK_ALLOW" [[Ident T]])
          = Some [KwFriend; Ident T; Semi])
  ∧ friends <$> compile (unit_of N Ts) = Some Ts
  ∧ ∀ (f : locked) (s : scope), l_key f = N → l_access f = Public →
      compile_call (unit_of N Ts) f s = compile_use (unit_of N Ts) s DefaultCtor
      ∧ (compile_call (unit_of N Ts) f s = None ↔ allowed N Ts s)
      ∧ ∀ T, s = Member T → T ∈ Ts → T ∉ mentions f →
          compile_call (unit_of N Ts) f s = None.
Proof.
  split; [intros x; rewrite expand_begin; apply begin_tokens_idents|].
  split.
  { intros x. rewrite expand_end. cbn [default]. intros H.
    repeat (apply elem_of_cons in H as [H|H]; [discriminate|]).
    by apply elem_of_nil in H. }
  split; [apply expand_allow|].
  split; [by rewrite compile_unit; cbn [fmap option_fmap option_map]; rewrite friends_passkey|].
  intros f s Hkey Hpub.
  assert (compile_call (unit_of N Ts) f s
          = compile_use (unit_of N Ts) s DefaultCtor) as Heq.
  { rewrite compile_call_passkey, decide_True by done. by rewrite Hpub. }
  rewrite Heq. split; [done|]. split; [by apply compile_use_ctor|].
  intros T -> HT _. apply compile_use_ctor; [done|]. exists T. auto.
Qed.

Lemma holder_names_no_caller_witness :
  ("OneClass" ∉ mentions example_locked)
  ∧ compile_call example_unit example_locked (Member "OneClass") = None.
Proof.
  assert ("OneClass" ∉ mentions example_locked) as Hno.
  { intros H. repeat (apply elem_of_cons in H as [H|H]; [discriminate|]).
    by apply elem_of_nil in H. }
  split; [exact Hno|].
  destruct (holder_names_no_caller
              "MyClassDefaultPasskey" ["OneClass"; "AnotherClass"])
    as (_ & _ & _ & _ & H).
  destruct (H example_locked (Member "OneClass") eq_refl eq_refl) as (_ & _ & H').
  apply (H' "OneClass" eq_refl); [|exact Hno].
  rewrite !elem_of_cons. auto.
Defined.

(** ** The members of a passkey, all of them *)

(** C7. Every declaration [PK_BEGIN(N) PK_ALLOW(T1) ... PK_ALLOW(Tk) PK_END]
    denotes the class [N] whose members are, in order, a private default
    constructor, a private copy constructor, a deleted copy assignment
    operator and one friend declaration per [PK_ALLOW]; none of them is
    public; and in a scope that is neither a declared friend nor [N] itself
    every use (building, copying, assigning) is refused. *)
Theorem passkey_members_exact (N : ident) (Ts : list ident) :
  ∃ cls, compile (unit_of N Ts) = Some cls
    ∧ c_name cls = N
    ∧ c_members cls
      = [ MFun Private DefaultCtor (Body []);
          MFun Private CopyCtor (Body []);
          MFun Private CopyAssign Deleted ] ++ (MFriend <$> Ts)
    ∧ friends cls = Ts
    ∧ Forall (λ d, is_public d = false) (c_members cls)
    ∧ ∀ (s : scope) (k : special),
        ¬ allowed N Ts s →
        is_Some (check cls s k) ∧ is_Some (compile_use (unit_of N Ts) s k).
Proof.
  exists (passkey N Ts). split; [apply compile_unit|].
  split; [reflexivity|]. split; [reflexivity|]. split; [|split].
  - apply friends_passkey.
  - unfold passkey. cbn [c_members]. apply Forall_app. split.
    + unfold key_members. by repeat constructor.
    + apply Forall_fmap, Forall_forall. by intros T _.
  - intros s k Hs. rewrite compile_use_passkey, check_passkey.
    by rewrite bool_decide_eq_false_2.
Qed.

(** ** The allow-list is a set *)

(** C8. The types a passkey grants access to are exactly the typenames given
    to its [PK_ALLOW]s.  Two allow-lists with the same elements, in any order
    and with any repetitions, grant the same set, and every use in every
    scope gets the same answer from both declarations. *)
Theorem allow_list_is_a_set (N : ident) (Ts Ts' : list ident) :
  (∀ T, T ∈ Ts ↔ T ∈ Ts') →
  granted <$> compile (unit_of N Ts) = Some (list_to_set Ts)
  ∧ granted <$> compile (unit_of N Ts) = granted <$> compile (unit_of N Ts')
  ∧ (∀ C, C ≠ N →
       compile_use (unit_of N Ts) (Member C) DefaultCtor = None
       ↔ C ∈ (list_to_set Ts : gset ident))
  ∧ ∀ (s : scope) (k : special),
      compile_use (unit_of N Ts) s k = compile_use (unit_of N Ts') s k.
Proof.
  intros Hsame. rewrite !compile_unit. cbn [fmap option_fmap option_map].
  unfold granted. rewrite !friends_passkey.
  split; [reflexivity|]. split; [|split].
  - f_equal. apply set_eq. intros T. rewrite !elem_of_list_to_set. apply Hsame.
  - intros C HC. rewrite compile_use_ctor by done. rewrite elem_of_list_to_set.
    split.
    + intros (C' & [= <-] & [?|?]); [contradiction|done].
    + intros H. exists C. auto.
  - intros s k. rewrite !compile_use_passkey.
    assert (allowed N Ts s ↔ allowed N Ts' s) as Hiff.
    { unfold allowed. split; intros (C & HsC & [HC|HC]); exists C;
        (split; [done|]); auto; right; by apply Hsame. }
    by rewrite (bool_decide_ext _ _ Hiff).
Qed.

Lemma allow_list_is_a_set_witness :
  (∀ T : ident, T ∈ ["A"; "B"] ↔ T ∈ ["B"; "A"; "B"; "A"])
  ∧ granted <$> compile (unit_of "Key" ["A"; "B"])
    = granted <$> compile (unit_of "Key" ["B"; "A"; "B"; "A"])
  ∧ compile_use (unit_of "Key" ["A"; "B"]) (Member "B") DefaultCtor
    = compile_use (unit_of "Key" ["B"; "A"; "B"; "A"]) (Member "B") DefaultCtor.
Proof.
  assert (∀ T : ident, T ∈ ["A"; "B"] ↔ T ∈ ["B"; "A"; "B"; "A"]) as Hsame.
  { intros T. rewrite !elem_of_cons, !elem_of_nil. tauto. }
  split; [exact Hsame|].
  destruct (allow_list_is_a_set "Key" ["A"; "B"] ["B"; "A"; "B"; "A"] Hsame)
    as (_ & Hg & _ & Hu).
  split; [exact Hg|apply Hu].
Defined.

(** ** A passkey nobody may build *)

(** The claim C9 has every function that takes a constant reference to [N]
    uncallable once [N] has no friend.  A caller that names an [N] it did
    not build needs no constructor: with an empty allow-list a call of the
    header's [MyLockedFunction] from outside every class, passing such an
    [N], is accepted. *)
Lemma unbuilt_passkey_opens_lock :
  friends <$> compile (unit_of "MyClassDefaultPasskey" []) = Some []
  ∧ compile_call_with (unit_of "MyClassDefaultPasskey" []) example_locked
      NonMember Existing = None.
Proof. split; reflexivity. Qed.

(** C9, amended.  [PK_BEGIN(N) PK_END] with no [PK_ALLOW] between them is a
    well-formed class definition with no friend.  In every scope but [N]
    itself no passkey can be built or copied (the constructors are private
    there) or assigned, so every call of a function whose last parameter is
    a constant reference to [N] that builds or copies the passkey at the
    call is refused.  A call that passes an [N] the caller did not build is
    not stopped by the passkey: it is accepted wherever the function is
    accessible. *)
Theorem empty_allow_list_locks_all (N : ident) :
  declaration N [] = [Fn "PK_BEGIN" [[Ident N]]; Obj "PK_END"]
  ∧ ∃ cls, compile (unit_of N []) = Some cls
      ∧ c_name cls = N
      ∧ friends cls = []
      ∧ ∀ s : scope, s ≠ Member N →
          compile_use (unit_of N []) s DefaultCtor = Some Inaccessible
          ∧ compile_use (unit_of N []) s CopyCtor = Some Inaccessible
          ∧ is_Some (compile_use (unit_of N []) s CopyAssign)
          ∧ ∀ f : locked, l_key f = N →
              compile_call_with (unit_of N []) f s Inline = Some Inaccessible
              ∧ compile_call_with (unit_of N []) f s CopyOf = Some Inaccessible
              ∧ (compile_call_with (unit_of N []) f s Existing = None
                 ↔ accessible (l_class f) (l_access f) s = true).
Proof.
  split; [reflexivity|]. exists (passkey N []).
  split; [apply compile_unit|]. split; [reflexivity|]. split; [reflexivity|].
  intros s Hs. assert (¬ allowed N [] s) as Hno by by rewrite allowed_nil.
  rewrite !(compile_use_refuses _ _ _ _ Hno).
  split; [done|]. split; [done|]. split; [done|].
  intros f Hf. rewrite !compile_call_with_passkey, !decide_True by done.
  rewrite !(compile_use_refuses _ _ _ _ Hno).
  by destruct (accessible _ _ _).
Qed.

Lemma empty_allow_list_locks_all_witness :
  compile_use (unit_of "MyClassDefaultPasskey" []) (Member "OneClass") DefaultCtor
  = Some Inaccessible
  ∧ compile_call_with (unit_of "MyClassDefaultPasskey" []) example_locked
      NonMember Inline = Some Inaccessible
  ∧ compile_call_with (unit_of "MyClassDefaultPasskey" []) example_locked
      (Member "OneClass") CopyOf = Some Inaccessible.
Proof.
  destruct (empty_allow_list_locks_all "MyClassDefaultPasskey")
    as (_ & cls & _ & _ & _ & H).
  split; [|split].
  - apply (H (Member "OneClass")). discriminate.
  - apply (H NonMember); [discriminate|reflexivity].
  - apply (H (Member "OneClass")); [discriminate|reflexivity].
Defined.

(** ** Beyond the recipe: how expansion and parsing compose *)

Lemma expand_all_app defs src1 src2 :
  expand_all defs (src1 ++ src2)
  = ts1 ← expand_all defs src1; ts2 ← expand_all defs src2; Some (ts1 ++ ts2).
Proof.
  induction src1 as [|i src1 IH]; cbn [app expand_all].
  - by destruct (expand_all defs src2).
  - rewrite IH. destruct (expand defs i) as [t|]; [|done]. cbn [mbind option_bind].
    destruct (expand_all defs src1) as [t1|]; [|done]. cbn [mbind option_bind].
    destruct (expand_all defs src2) as [t2|]; [|done]. cbn [mbind option_bind].
    by rewrite app_assoc.
Qed.

Lemma expand_all_fails defs src1 i src2 :
  expand defs i = None → expand_all defs (src1 ++ i :: src2) = None.
Proof.
  intros Hi. rewrite expand_all_app. cbn [expand_all]. rewrite Hi.
  by destruct (expand_all defs src1).
Qed.

Lemma expand_all_allows_only Ts :
  expand_all header_macros (allows Ts) = Some (allow_tokens Ts).
Proof.
  induction Ts as [|T Ts IH]; [reflexivity|].
  change (expand_all header_macros (Fn "PK_ALLOW" [[Ident T]] :: allows Ts)
          = Some ([KwFriend; Ident T; Semi] ++ allow_tokens Ts)).
  cbn [expand_all]. by rewrite expand_allow, IH.
Qed.

Lemma expand_all_declaration N Ts :
  expand_all header_macros (declaration N Ts) = Some (decl_tokens N Ts).
Proof.
  unfold declaration. cbn [expand_all].
  by rewrite expand_begin, expand_allows.
Qed.

(** A file that includes the header and then holds [src]. *)
Lemma preprocess_code src :
  preprocess [] (Passkey_h ++ [Code src]) = expand_all header_macros src.
Proof.
  unfold Passkey_h. cbn [app preprocess]. fold header_macros.
  destruct (expand_all header_macros src) as [ts|]; [|done].
  cbn [mbind option_bind]. by rewrite app_nil_r.
Qed.

Lemma parse_members_allow_tokens N a Ts rest :
  parse_members N a (allow_tokens Ts ++ rest)
  = app (MFriend <$> Ts) <$> parse_members N a rest.
Proof.
  induction Ts as [|T Ts IH].
  - cbn. by destruct (parse_members N a rest).
  - change (parse_members N a
              (KwFriend :: Ident T :: Semi :: allow_tokens Ts ++ rest)
            = app (MFriend <$> T :: Ts) <$> parse_members N a rest).
    cbn [parse_members]. rewrite IH.
    by destruct (parse_members N a rest).
Qed.

Lemma parse_class_begin N rest :
  parse_class (begin_tokens N ++ rest)
  = ClassDef N ∘ app key_members <$> parse_members N Private rest.
Proof.
  unfold begin_tokens, parse_class. cbn [app parse_members].
  rewrite !decide_True by done.
  by destruct (parse_members N Private rest).
Qed.

(** ** Declarations that depart from the recipe *)

(** X1. The three parts are all needed, in their places: a declaration with
    no [PK_END], one with no [PK_BEGIN], and one with a [PK_ALLOW] after
    [PK_END] are each refused, whatever the name and the allow-list. *)
Theorem misplaced_parts_refused (N : ident) (Ts : list ident) (T : ident) :
  compile (Passkey_h ++ [Code (Fn "PK_BEGIN" [[Ident N]] :: allows Ts)]) = None
  ∧ compile (Passkey_h ++ [Code (allows Ts ++ [Obj "PK_END"])]) = None
  ∧ compile (Passkey_h ++ [Code (declaration N Ts ++ allows [T])]) = None.
Proof.
  unfold compile. rewrite !preprocess_code. repeat split.
  - cbn [expand_all]. rewrite expand_begin, expand_all_allows_only.
    cbn [mbind option_bind].
    rewrite parse_class_begin, <-(app_nil_r (allow_tokens Ts)).
    by rewrite parse_members_allow_tokens.
  - rewrite expand_all_app, expand_all_allows_only. cbn [mbind option_bind].
    by destruct Ts.
  - rewrite expand_all_app, expand_all_declaration, expand_all_allows_only.
    cbn [mbind option_bind].
    unfold decl_tokens. rewrite <-!app_assoc, parse_class_begin.
    by rewrite parse_members_allow_tokens.
Qed.

(** X2. [PK_BEGIN] and [PK_ALLOW] take one argument: wherever one of them
    is invoked with two or more, the file is refused. *)
Theorem surplus_arguments_refused (name : string) (args : list (list token))
    (src1 src2 : list src_item) :
  name = "PK_BEGIN" ∨ name = "PK_ALLOW" →
  1 < length args →
  compile (Passkey_h ++ [Code (src1 ++ Fn name args :: src2)]) = None.
Proof.
  intros Hname Hlen. unfold compile. rewrite preprocess_code.
  rewrite expand_all_fails; [done|].
  unfold expand. destruct Hname as [-> | ->].
  - change (lookup_macro header_macros "PK_BEGIN") with (Some PK_BEGIN).
    cbn [mbind option_bind m_params PK_BEGIN length].
    by rewrite decide_False by lia.
  - change (lookup_macro header_macros "PK_ALLOW") with (Some PK_ALLOW).
    cbn [mbind option_bind m_params PK_ALLOW length].
    by rewrite decide_False by lia.
Qed.

Lemma surplus_arguments_refused_witness :
  compile (Passkey_h ++ [Code (Fn "PK_BEGIN" [[Ident "Key"]]
                               :: Fn "PK_ALLOW" [[Ident "A"]; [Ident "B"]]
                               :: [Obj "PK_END"])]) = None.
Proof.
  apply (surplus_arguments_refused "PK_ALLOW" [[Ident "A"]; [Ident "B"]]
           [Fn "PK_BEGIN" [[Ident "Key"]]] [Obj "PK_END"]).
  - by right.
  - cbn. lia.
Defined.

(** X3. An empty argument is refused: [PK_BEGIN()] names no class, whatever
    follows it, and [PK_ALLOW()] anywhere in an allow-list names no friend. *)
Theorem empty_argument_refused (N : ident) (Ts1 Ts2 : list ident)
    (rest : list src_item) :
  compile (Passkey_h ++ [Code (Fn "PK_BEGIN" [[]] :: rest)]) = None
  ∧ compile (Passkey_h ++ [Code (Fn "PK_BEGIN" [[Ident N]]
                                 :: allows Ts1 ++ Fn "PK_ALLOW" [[]]
                                 :: allows Ts2 ++ [Obj "PK_END"])]) = None.
Proof.
  unfold compile. rewrite !preprocess_code. split.
  - cbn [expand_all].
    change (expand header_macros (Fn "PK_BEGIN" [[]]))
      with (Some (subst [("_PasskeyName", [])] (m_body PK_BEGIN))).
    cbn [mbind option_bind].
    by destruct (expand_all header_macros rest).
  - cbn [expand_all]. rewrite expand_begin. cbn [mbind option_bind].
    rewrite expand_all_app, expand_all_allows_only. cbn [mbind option_bind expand_all].
    change (expand header_macros (Fn "PK_ALLOW" [[]])) with (Some [KwFriend; Semi]).
    cbn [mbind option_bind]. rewrite expand_allows. cbn [mbind option_bind].
    rewrite parse_class_begin, parse_members_allow_tokens.
    reflexivity.
Qed.

(** X4. An access specifier slipped in after [PK_BEGIN] opens nothing: the
    constructors are declared private before it, and friend declarations
    are not subject to access, so the class is the one the recipe gives. *)
Theorem stray_public_opens_nothing (N : ident) (Ts1 Ts2 : list ident) :
  compile (Passkey_h ++ [Code (Fn "PK_BEGIN" [[Ident N]]
                               :: allows Ts1 ++ Tok KwPublic :: Tok Colon
                               :: allows Ts2 ++ [Obj "PK_END"])])
  = compile (unit_of N (Ts1 ++ Ts2)).
Proof.
  rewrite compile_unit. unfold compile. rewrite preprocess_code.
  cbn [expand_all]. rewrite expand_begin. cbn [mbind option_bind].
  rewrite expand_all_app, expand_all_allows_only.
  cbn [mbind option_bind expand_all expand]. rewrite expand_allows.
  cbn [mbind option_bind].
  rewrite parse_class_begin, parse_members_allow_tokens.
  cbn [app parse_members]. rewrite parse_members_allows.
  unfold passkey. cbn. by rewrite fmap_app.
Qed.

(** ** How the allow-list grows *)

Lemma allowed_insert N Ts1 T Ts2 s :
  allowed N (Ts1 ++ T :: Ts2) s ↔ allowed N (Ts1 ++ Ts2) s ∨ s = Member T.
Proof.
  unfold allowed. split.
  - intros (C & -> & [->|H]); [left; exists N; auto|].
    apply elem_of_app in H as [H|H]; [left; exists C; rewrite elem_of_app; auto|].
    apply elem_of_cons in H as [->|H]; [by right|].
    left. exists C. rewrite elem_of_app. auto.
  - intros [(C & -> & [->|H]) | ->].
    + exists N. auto.
    + exists C. split; [done|]. right.
      apply elem_of_app in H as [H|H]; rewrite elem_of_app, elem_of_cons; auto.
    + exists T. split; [done|]. right. rewrite elem_of_app, elem_of_cons. auto.
Qed.

Lemma allowed_mono N Ts Ts' s : Ts ⊆ Ts' → allowed N Ts s → allowed N Ts' s.
Proof. intros Hsub (C & HC & [HN|H]); exists C; auto. Qed.

(** X5. One more [PK_ALLOW(T)], wherever it stands in the list, changes the
    answer in the scope of [T] alone: every use in every other scope is
    answered as without it. *)
Theorem allow_is_local (N : ident) (Ts1 : list ident) (T : ident)
    (Ts2 : list ident) (s : scope) (k : special) :
  s ≠ Member T →
  compile_use (unit_of N (Ts1 ++ T :: Ts2)) s k
  = compile_use (unit_of N (Ts1 ++ Ts2)) s k.
Proof.
  intros Hs. rewrite !compile_use_passkey.
  assert (allowed N (Ts1 ++ T :: Ts2) s ↔ allowed N (Ts1 ++ Ts2) s) as Hiff.
  { rewrite allowed_insert. tauto. }
  by rewrite (bool_decide_ext _ _ Hiff).
Qed.

Lemma allow_is_local_witness :
  compile_use (unit_of "Key" (["A"] ++ "B" :: ["C"])) (Member "D") DefaultCtor
  = compile_use (unit_of "Key" (["A"] ++ ["C"])) (Member "D") DefaultCtor.
Proof.
  apply (allow_is_local "Key" ["A"] "B" ["C"] (Member "D") DefaultCtor).
  discriminate.
Defined.

(** X6. Lengthening the allow-list revokes nothing: a use accepted under an
    allow-list is accepted under every list that contains it. *)
Theorem allow_never_revokes (N : ident) (Ts Ts' : list ident) (s : scope)
    (k : special) :
  Ts ⊆ Ts' →
  compile_use (unit_of N Ts) s k = None →
  compile_use (unit_of N Ts') s k = None.
Proof.
  intros Hsub. rewrite !compile_use_accepts. intros [H Hk].
  split; [by eapply allowed_mono|done].
Qed.

Lemma allow_never_revokes_witness :
  compile_use (unit_of "Key" ["A"]) (Member "A") CopyCtor = None
  ∧ compile_use (unit_of "Key" ["B"; "A"]) (Member "A") CopyCtor = None.
Proof.
  assert (compile_use (unit_of "Key" ["A"]) (Member "A") CopyCtor = None) as H
    by reflexivity.
  split; [exact H|].
  apply (allow_never_revokes "Key" ["A"] ["B"; "A"] (Member "A") CopyCtor);
    [|exact H].
  intros x. rewrite !elem_of_cons, !elem_of_nil. tauto.
Defined.

(** X7. Naming the passkey in its own allow-list, [PK_ALLOW(N)] inside the
    declaration of [N], grants nothing and takes nothing away: every use in
    every scope is answered as without it. *)
Theorem self_allow_is_idle (N : ident) (Ts1 Ts2 : list ident) (s : scope)
    (k : special) :
  compile_use (unit_of N (Ts1 ++ N :: Ts2)) s k
  = compile_use (unit_of N (Ts1 ++ Ts2)) s k.
Proof.
  rewrite !compile_use_passkey.
  assert (allowed N (Ts1 ++ N :: Ts2) s ↔ allowed N (Ts1 ++ Ts2) s) as Hiff.
  { rewrite allowed_insert. split; [|tauto].
    intros [H| ->]; [done|]. exists N. auto. }
  by rewrite (bool_decide_ext _ _ Hiff).
Qed.

(** ** Calls of a locked function *)

(** X8. A call of a locked function with an inline-constructed passkey is
    accepted exactly when three things hold: the passkey is the type the
    function asks for, the function is accessible to the caller in its own
    class, and the caller is allowed by the passkey.  Neither gate replaces
    the other. *)
Theorem call_needs_both_gates (N : ident) (Ts : list ident) (f : locked)
    (s : scope) :
  compile_call (unit_of N Ts) f s = None
  ↔ l_key f = N
    ∧ accessible (l_class f) (l_access f) s = true
    ∧ allowed N Ts s.
Proof.
  rewrite compile_call_passkey.
  destruct (decide (l_key f = N)) as [Hk|Hk]; [|split; [done|tauto]].
  destruct (accessible (l_class f) (l_access f) s) eqn:Hacc.
  - rewrite compile_use_ctor by done. tauto.
  - split; [done|]. by intros (_ & ? & _).
Qed.

(** X9. Holding a locked function gives no right to build its passkey: the
    class the function belongs to, unless the passkey allows it, cannot
    call its own locked function with a passkey it builds or copies at the
    call, the constructors being private there.  All it can do is pass on
    a passkey it did not build, which the passkey does not stop. *)
Theorem holder_cannot_build_its_key (N : ident) (Ts : list ident) (f : locked) :
  l_key f = N →
  c_name (l_class f) ≠ N →
  c_name (l_class f) ∉ Ts →
  compile_call_with (unit_of N Ts) f (Member (c_name (l_class f))) Inline
  = Some Inaccessible
  ∧ compile_call_with (unit_of N Ts) f (Member (c_name (l_class f))) CopyOf
    = Some Inaccessible
  ∧ compile_call_with (unit_of N Ts) f (Member (c_name (l_class f))) Existing
    = None.
Proof.
  intros Hk HN HTs.
  assert (¬ allowed N Ts (Member (c_name (l_class f)))) as Hno.
  { intros (C & [= <-] & [?|?]); contradiction. }
  assert (accessible (l_class f) (l_access f) (Member (c_name (l_class f)))
          = true) as Hacc.
  { destruct (l_access f); [done|]. cbn [accessible privileged].
    apply bool_decide_eq_true_2. by left. }
  rewrite !compile_call_with_passkey, !decide_True, !Hacc by done.
  by rewrite !(compile_use_refuses _ _ _ _ Hno).
Qed.

Lemma holder_cannot_build_its_key_witness :
  compile_call_with example_unit example_locked (Member "MyClass") Inline
  = Some Inaccessible
  ∧ compile_call_with example_unit example_locked (Member "MyClass") CopyOf
    = Some Inaccessible
  ∧ compile_call_with example_unit example_locked (Member "MyClass") Existing
    = None.
Proof.
  apply (holder_cannot_build_its_key
           "MyClassDefaultPasskey" ["OneClass"; "AnotherClass"] example_locked).
  - reflexivity.
  - discriminate.
  - intros H. repeat (apply elem_of_cons in H as [H|H]; [discriminate|]).
    by apply elem_of_nil in H.
Defined.

(** ** Several declarations in one file *)

Lemma expand_all_declarations ds :
  expand_all header_macros (declarations ds) = Some (all_tokens ds).
Proof.
  induction ds as [|[N Ts] ds IH]; [reflexivity|].
  change (expand_all header_macros (declaration N Ts ++ declarations ds)
          = Some (decl_tokens N Ts ++ all_tokens ds)).
  by rewrite expand_all_app, expand_all_declaration, IH.
Qed.

Lemma split_allow_tokens Ts rest :
  split_decl 1 (allow_tokens Ts ++ RBrace :: Semi :: rest)
  = Some (allow_tokens Ts ++ [RBrace; Semi], rest).
Proof.
  induction Ts as [|T Ts IH]; [reflexivity|].
  change (split_decl 1 (KwFriend :: Ident T :: Semi
                        :: allow_tokens Ts ++ RBrace :: Semi :: rest)
          = Some (KwFriend :: Ident T :: Semi
                  :: allow_tokens Ts ++ [RBrace; Semi], rest)).
  cbn [split_decl]. by rewrite IH.
Qed.

(** The first declaration of a token stream that starts with a passkey is
    that passkey, whole. *)
Lemma split_decl_tokens N Ts rest :
  split_decl 0 (decl_tokens N Ts ++ rest) = Some (decl_tokens N Ts, rest).
Proof.
  unfold decl_tokens, begin_tokens. rewrite <-!app_assoc.
  cbn [app split_decl]. by rewrite split_allow_tokens.
Qed.

Lemma parse_classes_all ds fuel :
  length ds ≤ fuel →
  parse_classes fuel (all_tokens ds) = Some ((λ d, passkey d.1 d.2) <$> ds).
Proof.
  revert fuel. induction ds as [|[N Ts] ds IH]; intros fuel Hfuel;
    [by destruct fuel|].
  destruct fuel as [|fuel]; [cbn in Hfuel; lia|].
  change (all_tokens ((N, Ts) :: ds)) with (decl_tokens N Ts ++ all_tokens ds).
  assert (∃ t ts, decl_tokens N Ts ++ all_tokens ds = t :: ts) as (t & ts & Hcons)
    by (by eexists _, _).
  rewrite Hcons. cbn [parse_classes]. rewrite <-Hcons.
  rewrite split_decl_tokens. cbn [mbind option_bind fst snd].
  rewrite (parse_passkey N Ts : parse_class (decl_tokens N Ts) = _).
  cbn [mbind option_bind].
  rewrite IH by (cbn in Hfuel; lia). reflexivity.
Qed.

Lemma all_tokens_length ds : length ds ≤ length (all_tokens ds).
Proof.
  induction ds as [|[N Ts] ds IH]; [done|].
  change (all_tokens ((N, Ts) :: ds)) with (decl_tokens N Ts ++ all_tokens ds).
  rewrite length_app. unfold decl_tokens, begin_tokens. cbn [length app]. lia.
Qed.

Lemma passkey_names ds : c_name <$> ((λ d, passkey d.1 d.2) <$> ds) = ds.*1.
Proof. induction ds as [|[N Ts] ds IH]; [done|]. cbn. by rewrite IH. Qed.

Lemma compile_all_unit ds :
  compile_all (unit_of_all ds)
  = if decide (NoDup ds.*1) then Some ((λ d, passkey d.1 d.2) <$> ds) else None.
Proof.
  unfold compile_all, unit_of_all.
  rewrite preprocess_code, expand_all_declarations. cbn [mbind option_bind].
  rewrite parse_classes_all by apply all_tokens_length. cbn [mbind option_bind].
  rewrite passkey_names. reflexivity.
Qed.

Lemma lookup_class_passkey ds N Ts :
  NoDup ds.*1 → (N, Ts) ∈ ds →
  lookup_class ((λ d, passkey d.1 d.2) <$> ds) N = Some (passkey N Ts).
Proof.
  unfold lookup_class.
  induction ds as [|[N' Ts'] ds IH]; intros Hnd Hin.
  - by apply elem_of_nil in Hin.
  - cbn [fmap list_fmap fst snd find c_name passkey] in *.
    apply NoDup_cons in Hnd as [Hfresh Hnd].
    apply elem_of_cons in Hin as [[= <- <-]|Hin].
    + by rewrite bool_decide_eq_true_2.
    + rewrite bool_decide_eq_false_2; [by apply IH|].
      intros ->. apply Hfresh. apply list_elem_of_fmap. by exists (N, Ts).
Qed.

(** X10. Passkeys declared one after the other in a file do not touch each
    other: when their names differ, the file compiles to one class per
    declaration, named as declared and in order, and the class each name
    denotes is the class that declaration gives alone (same members, same
    friends). *)
Theorem passkeys_are_independent (ds : list (ident * list ident)) :
  NoDup ds.*1 →
  ∃ cs, compile_all (unit_of_all ds) = Some cs
    ∧ c_name <$> cs = ds.*1
    ∧ ∀ N Ts, (N, Ts) ∈ ds →
        class_named (unit_of_all ds) N = compile (unit_of N Ts).
Proof.
  intros Hnd. exists ((λ d, passkey d.1 d.2) <$> ds).
  unfold class_named. rewrite compile_all_unit, decide_True by done.
  split; [done|]. split; [apply passkey_names|].
  intros N Ts Hin. cbn [mbind option_bind].
  by rewrite compile_unit, (lookup_class_passkey ds N Ts).
Qed.

Lemma passkeys_are_independent_witness :
  class_named (unit_of_all [("K1", ["A"]); ("K2", ["B"; "C"])]) "K2"
  = compile (unit_of "K2" ["B"; "C"]).
Proof.
  assert (NoDup [("K1", ["A"]); ("K2", ["B"; "C"])].*1) as Hnd.
  { cbn. repeat constructor; rewrite ?elem_of_cons, ?elem_of_nil;
      intros H; repeat destruct H as [H|H]; done. }
  destruct (passkeys_are_independent [("K1", ["A"]); ("K2", ["B"; "C"])] Hnd)
    as (cs & _ & _ & H).
  apply H. rewrite !elem_of_cons. auto.
Defined.

(** X11. A passkey declared twice in one file is a class defined twice: the
    file is refused, whatever the two allow-lists are. *)
Theorem redeclaration_refused (ds : list (ident * list ident)) :
  ¬ NoDup ds.*1 → compile_all (unit_of_all ds) = None.
Proof. intros Hdup. by rewrite compile_all_unit, decide_False. Qed.

Lemma redeclaration_refused_witness :
  compile_all (unit_of_all [("Key", ["A"]); ("Other", []); ("Key", ["B"])]) = None.
Proof.
  apply (redeclaration_refused [("Key", ["A"]); ("Other", []); ("Key", ["B"])]).
  cbn. intros H. apply NoDup_cons in H as [H _]. apply H.
  rewrite !elem_of_cons. auto.
Defined.

(** ** The names in an expansion *)

Lemma idents_app ts1 ts2 : idents (ts1 ++ ts2) = idents ts1 ++ idents ts2.
Proof. apply omap_app. Qed.

Lemma idents_allow_tokens Ts : idents (allow_tokens Ts) = Ts.
Proof.
  induction Ts as [|T Ts IH]; [done|].
  change (idents (KwFriend :: Ident T :: Semi :: allow_tokens Ts) = T :: Ts).
  cbn. f_equal. exact IH.
Qed.

(** X12. The macros bring no name of their own into a declaration: the
    identifiers of the expansion are the passkey's name, six times, and
    then the allowed types in the order written.  The parameter names
    [_PasskeyName] and [_ClassName] are gone, and a type that happens to
    bear one of those names is passed through untouched. *)
Theorem expansion_names_its_arguments (N : ident) (Ts : list ident) :
  idents <$> preprocess [] (unit_of N Ts) = Some (replicate 6 N ++ Ts).
Proof.
  rewrite preprocess_unit. cbn [fmap option_fmap option_map]. f_equal.
  rewrite !idents_app, idents_allow_tokens. cbn. by rewrite app_nil_r.
Qed.
